(** * gtsam/hybrid/HybridFactorGraph: the hybrid factor container

    A shallow embedding of [HybridFactorGraph.h] and [HybridFactorGraph.cpp]
    (two revisions of the same class: the header is the template over the
    continuous graph type [FG], the .cpp file is the earlier, non-template
    class whose continuous member is called [nonlinearGraph_]).

    Factors are heap objects held through [boost::shared_ptr]; a graph is a
    [std::vector] of such pointers, none of them null.  An object is
    modelled by its address and by what the dynamic casts of the source
    observe of it. *)

From Stdlib Require Import String.
From stdpp Require Import base tactics option list numbers fin finite.

(** [Key] is [std::uint64_t]; a [DiscreteKey] is [std::pair<Key, size_t>]
    (variable, cardinality); [DiscreteKeys] is a vector of them. *)
Abbreviation Key := N (only parsing).
Abbreviation DiscreteKey := (N * nat)%type (only parsing).
Abbreviation DiscreteKeys := (list (N * nat)) (only parsing).

(** The only exception the two files raise. *)
Inductive exception : Type :=
| runtime_error (what : string).

Section Hybrid.

(** External collaborators of the container (none of them is part of the
    two files): the cardinality lookup of discrete variables, the type of
    linear factors, of evaluation points and of the tolerance. *)
Variable cardinality : Key → nat.
Variable GaussianFactor : Type.
Variable Values : Type.
Variable double : Type.

(** ** Decision trees *)

(** Modelled from the spec: the decision tree type (DecisionTree.h is not
    among the two files).  "Ordered internal nodes keyed by discrete
    variable, each with exactly cardinality children (one per state);
    leaves hold a value of type V."  The number of children of a node is
    what the cardinality lookup gives for its variable, so two trees never
    disagree on the cardinality of a variable. *)
Inductive FDT (V : Type) : Type :=
| Leaf (v : V)
| Choice (label : Key) (branches : fin (cardinality label) → FDT V).

Arguments Leaf {V} v.
Arguments Choice {V} label branches.

(** Modelled from the spec: a discrete assignment, "one valid state index
    each". *)
Definition Assignment : Type := ∀ k : Key, fin (cardinality k).

(** Modelled from the spec: the leaf a tree holds for an assignment. *)
Fixpoint eval {V} (t : FDT V) (a : Assignment) : V :=
  match t with
  | Leaf v => v
  | Choice k bs => eval (bs (a k)) a
  end.

(** Modelled from the spec: the leaves of a tree (DecisionTree.h), one per
    joint assignment of the variables tested on the way, branch by
    branch. *)
Fixpoint leaves {V} (t : FDT V) : list V :=
  match t with
  | Leaf v => [v]
  | Choice k bs => enum (fin (cardinality k)) ≫= λ i, leaves (bs i)
  end.

(** Modelled from the spec: the variables a tree tests (DecisionTree.h),
    its discrete scope, repeated when tested on several branches. *)
Fixpoint labels {V} (t : FDT V) : list Key :=
  match t with
  | Leaf _ => []
  | Choice k bs => k :: (enum (fin (cardinality k)) ≫= λ i, labels (bs i))
  end.

(** Modelled from the spec: the unary apply of DecisionTree.h, the same
    tree with a function applied to every leaf. *)
Fixpoint tree_map {A B} (f : A → B) (t : FDT A) : FDT B :=
  match t with
  | Leaf v => Leaf (f v)
  | Choice k bs => Choice k (λ i, tree_map f (bs i))
  end.

(** Modelled from the spec: the projection of a tree (DecisionTree.h) onto
    the assignments that give variable [k] the state [i]. *)
Fixpoint restrict {V} (k : Key) (i : fin (cardinality k)) (t : FDT V) : FDT V :=
  match t with
  | Leaf v => Leaf v
  | Choice k' bs =>
      match decide (k = k') with
      | left e => restrict k i (bs (eq_rect k (λ x, fin (cardinality x)) i k' e))
      | right _ => Choice k' (λ j, restrict k i (bs j))
      end
  end.

(** Modelled from the spec: the merge of two trees over possibly different
    scopes (the binary apply of DecisionTree.h).  "For every joint assignment over the union scope, the
    resulting leaf is the accumulator leaf for the projection of the
    assignment onto the accumulator's scope, combined with the incoming
    factor's leaf for the projection onto its own scope." *)
Fixpoint merge {A B C} (op : A → B → C) (f : FDT A) (g : FDT B) : FDT C :=
  match f with
  | Leaf v => tree_map (op v) g
  | Choice k bs => Choice k (λ i, merge op (bs i) (restrict k i g))
  end.

(** ** Factor objects *)

(** What [dynamic_pointer_cast<DCFactor>] finds: a
    [DCGaussianMixtureFactor], which owns a tree of linear factors, or some
    other class derived from [DCFactor]. *)
Inductive DCClass : Type :=
| DCGaussianMixtureFactor (factors : FDT GaussianFactor)
| OtherDCFactor.

(** A factor object.  [address] is the identity of the pointee;
    [isDiscreteFactor] says whether [dynamic_pointer_cast<DiscreteFactor>]
    succeeds, [asDCFactor] whether [dynamic_pointer_cast<DCFactor>] does
    (the two are independent: a class may derive from both);
    [isContinuousFactor] says whether the object is a factor of the
    continuous graph [FG] (a [NonlinearFactor] for a
    [NonlinearFactorGraph], a [GaussianFactor] for a
    [GaussianFactorGraph]): no function of the two files tests it.
    Modelled from the spec: [scope], the discrete variables the factor
    references. *)
Record Factor : Type := mkFactor {
  address : N;
  scope : DiscreteKeys;
  isDiscreteFactor : bool;
  asDCFactor : option DCClass;
  isContinuousFactor : bool;
}.

Definition isDCFactor (f : Factor) : bool :=
  match asDCFactor f with Some _ => true | None => false end.

(** [dynamic_pointer_cast<DCGaussianMixtureFactor>]. *)
Definition asGaussianMixture (f : Factor) : option (FDT GaussianFactor) :=
  match asDCFactor f with
  | Some (DCGaussianMixtureFactor t) => Some t
  | _ => None
  end.

Definition isGaussianMixture (f : Factor) : bool :=
  match asGaussianMixture f with Some _ => true | None => false end.

(** ** The container *)

(** [factors_] is the vector of the protected base [FactorGraph<Factor>];
    the three members follow. *)
Record HybridFactorGraph : Type := mkGraph {
  factors_ : list Factor;
  factorGraph_ : list Factor;
  discreteGraph_ : list Factor;
  dcGraph_ : list Factor;
}.

(** [HybridFactorGraph() = default]. *)
Definition empty_graph : HybridFactorGraph := mkGraph [] [] [] [].

(** The three-graph constructor: the members are copied, then each graph is
    pushed onto the base in the order continuous, discrete, DC. *)
Definition make (factorGraph discreteGraph dcGraph : list Factor)
  : HybridFactorGraph :=
  let base0 : list Factor := [] in
  let base1 := base0 ++ factorGraph in
  let base2 := base1 ++ discreteGraph in
  let base3 := base2 ++ dcGraph in
  mkGraph base3 factorGraph discreteGraph dcGraph.

(** [using Base::size], [using Base::empty], [using Base::operator[]]. *)
Definition size (g : HybridFactorGraph) : nat := length (factors_ g).
Definition empty (g : HybridFactorGraph) : bool :=
  match factors_ g with [] => true | _ => false end.
Definition at_ (g : HybridFactorGraph) (i : nat) : option Factor := factors_ g !! i.

(** [push_discrete] and [push_dc]: the sub-collection first, then the
    base.  ([IsDiscrete] and [IsDC] gate the static type of the argument at
    compile time; nothing is tested at run time.) *)
Definition push_discrete (g : HybridFactorGraph) (discreteFactor : Factor)
  : HybridFactorGraph :=
  mkGraph (factors_ g ++ [discreteFactor]) (factorGraph_ g)
          (discreteGraph_ g ++ [discreteFactor]) (dcGraph_ g).

Definition push_dc (g : HybridFactorGraph) (dcFactor : Factor)
  : HybridFactorGraph :=
  mkGraph (factors_ g ++ [dcFactor]) (factorGraph_ g)
          (discreteGraph_ g) (dcGraph_ g ++ [dcFactor]).

(** [push_back(sharedFactor)]: two independent [if]s, no [else]. *)
Definition push_back (g : HybridFactorGraph) (sharedFactor : Factor)
  : HybridFactorGraph :=
  let g1 := if isDiscreteFactor sharedFactor then push_discrete g sharedFactor else g in
  if isDCFactor sharedFactor then push_dc g1 sharedFactor else g1.

(** [push_back(firstFactor, lastFactor)]. *)
Definition push_back_range (g : HybridFactorGraph) (fs : list Factor)
  : HybridFactorGraph :=
  foldl push_back g fs.

(** [nrDiscreteFactors()], [nrDcFactors()]. *)
Definition nrDiscreteFactors (g : HybridFactorGraph) : nat := length (discreteGraph_ g).
Definition nrDcFactors (g : HybridFactorGraph) : nat := length (dcGraph_ g).

(** [clear()]: the three members are reset ([= FG()] in the header,
    [resize(0)] in the .cpp file); the base vector is not touched. *)
Definition clear (g : HybridFactorGraph) : HybridFactorGraph :=
  mkGraph (factors_ g) [] [] [].

(** ** Collaborators

    What the two files call and do not define: the virtual
    [Factor::equals(other, tol)] of the factor classes, the [discreteKeys()]
    of the discrete and of the DC graph, [NonlinearFactorGraph::linearize]
    and the virtual [DCFactor::linearize].  They are taken as given. *)
Class Collaborators : Type := {
  factor_equals : Factor → Factor → double → bool;
  DiscreteFactorGraph_discreteKeys : list Factor → DiscreteKeys;
  DCFactorGraph_discreteKeys : list Factor → DiscreteKeys;
  NonlinearFactorGraph_linearize : list Factor → Values → list Factor;
  DCFactor_linearize : Factor → Values → Factor;
}.

Context `{!Collaborators}.

(** ** [equals] *)

(** Modelled from the spec: [equals] of one graph (FactorGraph-inst.h is
    not among the two files).  "Equal under the same numeric tolerance
    applied element-wise in insertion order, AND sizes match." *)
Definition graph_equals (l1 l2 : list Factor) (tol : double) : bool :=
  bool_decide (length l1 = length l2)
  && forallb (λ p, factor_equals p.1 p.2 tol) (zip l1 l2).

(** [HybridFactorGraph<FG>::equals] (header; the .cpp file has the same
    four conjuncts in another order). *)
Definition equals (this other : HybridFactorGraph) (tol : double) : bool :=
  graph_equals (factors_ this) (factors_ other) tol
  && graph_equals (discreteGraph_ this) (discreteGraph_ other) tol
  && graph_equals (dcGraph_ this) (dcGraph_ other) tol
  && graph_equals (factorGraph_ this) (factorGraph_ other) tol.

(** ** [discreteKeys] *)

(** One turn of the loop: [std::find] over the result so far, then
    [push_back] when the key was not found. *)
Definition insert_unique (result : DiscreteKeys) (key : DiscreteKey) : DiscreteKeys :=
  if bool_decide (key ∈ result) then result else result ++ [key].

Definition discreteKeys (g : HybridFactorGraph) : DiscreteKeys :=
  let result := DiscreteFactorGraph_discreteKeys (discreteGraph_ g) in
  let dcKeys := DCFactorGraph_discreteKeys (dcGraph_ g) in
  foldl insert_unique result dcKeys.

(** The keys of a list in order of first appearance. *)
Fixpoint first_occurrences (l : DiscreteKeys) : DiscreteKeys :=
  match l with
  | [] => []
  | k :: l' => k :: filter (λ k', k' ≠ k) (first_occurrences l')
  end.

(** ** [linearize] *)

(** [HybridFactorGraph::linearize] (.cpp file).  The result, a
    [GaussianHybridFactorGraph], is built by the three-graph constructor. *)
Definition linearize (this : HybridFactorGraph) (continuousValues : Values)
  : HybridFactorGraph :=
  let gaussianFactorGraph :=
    NonlinearFactorGraph_linearize (factorGraph_ this) continuousValues in
  let linearized_DC_factors :=
    foldl (λ acc dcFactor,
             if isGaussianMixture dcFactor then acc ++ [dcFactor]
             else acc ++ [DCFactor_linearize dcFactor continuousValues])
          [] (dcGraph_ this) in
  make gaussianFactorGraph (discreteGraph_ this) linearized_DC_factors.

(** ** [sum] *)

(** [DCGaussianMixtureFactor::Sum]: "a decision tree of
    GaussianFactorGraphs". *)
Definition Sum : Type := FDT (list GaussianFactor).

(** Modelled from the spec: the default-constructed [Sum]
    (DCGaussianMixtureFactor.h is not among the two files).  "Start with an
    empty FDT (no discrete scope, one leaf: the empty collection)." *)
Definition Sum_default : Sum := Leaf [].

(** Modelled from the spec: the combining operator of the merge done by
    [+=], "append-to-collection". *)
Definition append_to_collection (graph : list GaussianFactor) (factor : GaussianFactor)
  : list GaussianFactor :=
  graph ++ [factor].

(** Modelled from the spec: the operator [+=] of a mixture factor onto a
    [Sum] (DCGaussianMixtureFactor.h).  "Merge the running FDT with that
    factor's FDT." *)
Definition Sum_add (sum : Sum) (mixtureFactor : FDT GaussianFactor) : Sum :=
  merge append_to_collection sum mixtureFactor.

(** The exception of [sum()]. *)
Definition UnsupportedFactorKind : exception :=
  runtime_error "HybridFactorGraph::sum can only handle DCGaussianMixtureFactors.".

(** The loop of [sum()]: the running tree, then the entries still to visit. *)
Fixpoint sum_loop (sum : Sum) (dcFactors : list Factor) : exception + Sum :=
  match dcFactors with
  | [] => inr sum
  | dcFactor :: rest =>
      match asGaussianMixture dcFactor with
      | Some mixtureFactor => sum_loop (Sum_add sum mixtureFactor) rest
      | None => inl UnsupportedFactorKind
      end
  end.

Definition sum (this : HybridFactorGraph) : exception + Sum :=
  sum_loop Sum_default (dcGraph_ this).

(** ** Member calls

    A call on a container gives an outcome and the container after the
    call.  [linearize], [sum] are [const] members: the receiver is handed
    back as it was; [push_back] and [clear] return [void]. *)
Inductive call : Type :=
| call_push_back (sharedFactor : Factor)
| call_clear
| call_linearize (continuousValues : Values)
| call_sum.

Inductive outcome : Type :=
| returned_void
| returned_graph (g : HybridFactorGraph)
| returned_Sum (s : Sum)
| thrown (e : exception).

Definition invoke (c : call) (this : HybridFactorGraph) : outcome * HybridFactorGraph :=
  match c with
  | call_push_back f => (returned_void, push_back this f)
  | call_clear => (returned_void, clear this)
  | call_linearize v => (returned_graph (linearize this v), this)
  | call_sum =>
      (match sum this with inl e => thrown e | inr s => returned_Sum s end, this)
  end.

(** ** The filing discipline

    [filed flat fg dg dc]: the flat list can be read as a log of filings,
    each of which appended one factor both to the flat list and to one of
    the three sub-collections. *)
Inductive filed : list Factor → list Factor → list Factor → list Factor → Prop :=
| filed_nil : filed [] [] [] []
| filed_continuous flat fg dg dc f :
    filed flat fg dg dc → filed (flat ++ [f]) (fg ++ [f]) dg dc
| filed_discrete flat fg dg dc f :
    filed flat fg dg dc → filed (flat ++ [f]) fg (dg ++ [f]) dc
| filed_dc flat fg dg dc f :
    filed flat fg dg dc → filed (flat ++ [f]) fg dg (dc ++ [f]).

Definition consistent (g : HybridFactorGraph) : Prop :=
  filed (factors_ g) (factorGraph_ g) (discreteGraph_ g) (dcGraph_ g).

(** Everything the three sub-collections hold. *)
Definition stored (g : HybridFactorGraph) : list Factor :=
  factorGraph_ g ++ discreteGraph_ g ++ dcGraph_ g.

(** The number of distinct objects a list of pointers refers to. *)
Definition distinct_objects (l : list Factor) : nat :=
  length (remove_dups (address <$> l)).

(** ** [operator+=] of a linear factor

    The static operator of the .cpp file, "adding a GaussianFactor to a
    sum": the lambda [add] copies the graph of a leaf and pushes the factor
    onto the copy; [sum.apply(add)] does so at every leaf. *)
Definition Sum_add_GaussianFactor (sum : Sum) (factor : GaussianFactor) : Sum :=
  let add := λ graph : list GaussianFactor,
    let result := graph in result ++ [factor] in
  tree_map add sum.

(** ** What one [push_back] files

    The entries [push_back(sharedFactor)] appends to the flat list: one per
    cast that succeeds, the discrete one first. *)
Definition filings (sharedFactor : Factor) : list Factor :=
  (if isDiscreteFactor sharedFactor then [sharedFactor] else [])
  ++ (if isDCFactor sharedFactor then [sharedFactor] else []).

(** The typing the member declarations promise: the discrete graph holds
    discrete factors, the DC graph holds DC factors. *)
Definition well_typed (g : HybridFactorGraph) : Prop :=
  Forall (λ f, isDiscreteFactor f) (discreteGraph_ g)
  ∧ Forall (λ f, isDCFactor f) (dcGraph_ g).

End Hybrid.

(** * Concrete containers

    Every discrete variable has two states, linear factors are named by
    numbers, evaluation points carry nothing and the tolerance is a
    rational. *)

Arguments Leaf {cardinality V} v.
Arguments Choice {cardinality V} label branches.
Arguments eval {cardinality V} t a.
Arguments tree_map {cardinality A B} f t.
Arguments restrict {cardinality V} k i t.
Arguments leaves {cardinality V} t.
Arguments labels {cardinality V} t.
Arguments merge {cardinality A B C} op f g.
Arguments DCGaussianMixtureFactor {cardinality GaussianFactor} factors.
Arguments OtherDCFactor {cardinality GaussianFactor}.
Arguments mkFactor {cardinality GaussianFactor}
  address scope isDiscreteFactor asDCFactor isContinuousFactor.
Arguments isContinuousFactor {cardinality GaussianFactor} f.
Arguments address {cardinality GaussianFactor} f.
Arguments scope {cardinality GaussianFactor} f.
Arguments isDiscreteFactor {cardinality GaussianFactor} f.
Arguments asDCFactor {cardinality GaussianFactor} f.
Arguments asGaussianMixture {cardinality GaussianFactor} f.
Arguments isDCFactor {cardinality GaussianFactor} f.
Arguments isGaussianMixture {cardinality GaussianFactor} f.
Arguments factors_ {cardinality GaussianFactor} h.
Arguments factorGraph_ {cardinality GaussianFactor} h.
Arguments discreteGraph_ {cardinality GaussianFactor} h.
Arguments dcGraph_ {cardinality GaussianFactor} h.
Arguments empty_graph {cardinality GaussianFactor}.
Arguments make {cardinality GaussianFactor} factorGraph discreteGraph dcGraph.
Arguments size {cardinality GaussianFactor} g.
Arguments empty {cardinality GaussianFactor} g.
Arguments at_ {cardinality GaussianFactor} g i.
Arguments push_discrete {cardinality GaussianFactor} g discreteFactor.
Arguments push_dc {cardinality GaussianFactor} g dcFactor.
Arguments push_back {cardinality GaussianFactor} g sharedFactor.
Arguments push_back_range {cardinality GaussianFactor} g fs.
Arguments nrDiscreteFactors {cardinality GaussianFactor} g.
Arguments nrDcFactors {cardinality GaussianFactor} g.
Arguments clear {cardinality GaussianFactor} g.
Arguments factor_equals {cardinality GaussianFactor Values double _} _ _ _.
Arguments DiscreteFactorGraph_discreteKeys {cardinality GaussianFactor Values double _} _.
Arguments DCFactorGraph_discreteKeys {cardinality GaussianFactor Values double _} _.
Arguments NonlinearFactorGraph_linearize {cardinality GaussianFactor Values double _} _ _.
Arguments DCFactor_linearize {cardinality GaussianFactor Values double _} _ _.
Arguments graph_equals {cardinality GaussianFactor Values double _} l1 l2 tol.
Arguments equals {cardinality GaussianFactor Values double _} this other tol.
Arguments discreteKeys {cardinality GaussianFactor Values double _} g.
Arguments linearize {cardinality GaussianFactor Values double _} this continuousValues.
Arguments Sum_default {cardinality GaussianFactor}.
Arguments Sum_add {cardinality GaussianFactor} sum mixtureFactor.
Arguments append_to_collection {GaussianFactor} graph factor.
Arguments sum_loop {cardinality GaussianFactor} sum dcFactors.
Arguments sum {cardinality GaussianFactor} this.
Arguments call_push_back {cardinality GaussianFactor Values} sharedFactor.
Arguments call_clear {cardinality GaussianFactor Values}.
Arguments call_linearize {cardinality GaussianFactor Values} continuousValues.
Arguments call_sum {cardinality GaussianFactor Values}.
Arguments returned_void {cardinality GaussianFactor}.
Arguments returned_graph {cardinality GaussianFactor} g.
Arguments returned_Sum {cardinality GaussianFactor} s.
Arguments thrown {cardinality GaussianFactor} e.
Arguments invoke {cardinality GaussianFactor Values double _} c this.
Arguments filed {cardinality GaussianFactor} _ _ _ _.
Arguments filed_nil {cardinality GaussianFactor}.
Arguments filed_continuous {cardinality GaussianFactor} flat fg dg dc f _.
Arguments filed_discrete {cardinality GaussianFactor} flat fg dg dc f _.
Arguments filed_dc {cardinality GaussianFactor} flat fg dg dc f _.
Arguments consistent {cardinality GaussianFactor} g.
Arguments stored {cardinality GaussianFactor} g.
Arguments distinct_objects {cardinality GaussianFactor} l.
Arguments Sum_add_GaussianFactor {cardinality GaussianFactor} sum factor.
Arguments filings {cardinality GaussianFactor} sharedFactor.
Arguments well_typed {cardinality GaussianFactor} g.

Definition binary : Key → nat := λ _, 2.

Definition key_A : DiscreteKey := (0%N, 2).
Definition key_B : DiscreteKey := (1%N, 2).

(** Two mixture trees: one linear factor per state of A, resp. of B. *)
Definition tree_A : FDT binary nat := Choice 0%N (λ i, Leaf (10 + fin_to_nat i)).
Definition tree_B : FDT binary nat := Choice 1%N (λ i, Leaf (20 + fin_to_nat i)).

Definition discrete_1 : Factor binary nat := mkFactor 1 [key_A] true None false.
Definition discrete_2 : Factor binary nat := mkFactor 2 [key_A] true None false.
Definition discrete_dc : Factor binary nat :=
  mkFactor 3 [key_A] true (Some OtherDCFactor) false.
Definition mixture_A : Factor binary nat :=
  mkFactor 4 [key_A] false (Some (DCGaussianMixtureFactor tree_A)) false.
Definition mixture_B : Factor binary nat :=
  mkFactor 5 [key_B] false (Some (DCGaussianMixtureFactor tree_B)) false.
Definition other_dc : Factor binary nat :=
  mkFactor 6 [key_B] false (Some OtherDCFactor) false.

(** A DC factor that gives the variable of [key_A] three states. *)
Definition other_dc_A3 : Factor binary nat :=
  mkFactor 8 [(0%N, 3)] false (Some OtherDCFactor) false.
(** A continuous factor, and nothing else. *)
Definition continuous_1 : Factor binary nat := mkFactor 7 [] false None true.

(** One way the collaborators may behave: a graph lists the scopes of its
    factors one after the other; two factors are equal when they are the
    same object; linearization gives a new object. *)
Definition scopes (l : list (Factor binary nat)) : DiscreteKeys := l ≫= scope.

Definition same_object (f1 f2 : Factor binary nat) (tol : QArith_base.Q) : bool :=
  bool_decide (address f1 = address f2).

Definition linearized (dcFactor : Factor binary nat) (v : unit) : Factor binary nat :=
  mkFactor (address dcFactor + 100) (scope dcFactor) false
    (Some (DCGaussianMixtureFactor (Leaf (N.to_nat (address dcFactor))))) false.

Definition linearized_graph (l : list (Factor binary nat)) (v : unit)
  : list (Factor binary nat) :=
  (λ f, mkFactor (address f + 100) [] false None true) <$> l.

#[local] Instance by_scope : Collaborators binary nat unit QArith_base.Q := {|
  factor_equals := same_object;
  DiscreteFactorGraph_discreteKeys := scopes;
  DCFactorGraph_discreteKeys := scopes;
  NonlinearFactorGraph_linearize := linearized_graph;
  DCFactor_linearize := linearized;
|}.

Definition all_ones : Assignment binary := λ _, 1%fin.

(** The default tolerance of [equals], [1e-9]. *)
Definition tol_default : QArith_base.Q := QArith_base.Qmake 1 1000000000.

Definition two_mixtures : HybridFactorGraph binary nat :=
  push_back_range empty_graph [mixture_A; mixture_B].

Definition one_discrete : HybridFactorGraph binary nat :=
  push_back empty_graph discrete_1.

Definition filed_twice : HybridFactorGraph binary nat :=
  push_back empty_graph discrete_dc.

Definition same_key_twice : HybridFactorGraph binary nat :=
  push_back_range empty_graph [discrete_1; discrete_2].

Definition discrete_then_dc : HybridFactorGraph binary nat :=
  push_dc (push_discrete empty_graph discrete_1) other_dc.

Definition dc_then_discrete : HybridFactorGraph binary nat :=
  push_discrete (push_dc empty_graph other_dc) discrete_1.

(** A variable with two states and one with three, for the cross product. *)
Definition two_or_three : Key → nat := λ k, if decide (k = 0%N) then 2 else 3.

Definition over_A : FDT two_or_three (list nat) :=
  Choice 0%N (λ i, Leaf [fin_to_nat i]).
Definition over_B : FDT two_or_three nat :=
  Choice 1%N (λ i, Leaf (10 + fin_to_nat i)).

(** * Properties *)

Section Properties.

Context {cardinality : Key → nat} {GaussianFactor Values double : Type}.
Context `{!Collaborators cardinality GaussianFactor Values double}.

Implicit Types (g this other : HybridFactorGraph cardinality GaussianFactor).
Implicit Types (f : Factor cardinality GaussianFactor).
Implicit Types (fs fg dg dc flat : list (Factor cardinality GaussianFactor)).
Implicit Types (a : Assignment cardinality).
Implicit Types (v : Values) (tol : double).

(** ** The router *)

Lemma push_back_discreteGraph g f :
  discreteGraph_ (push_back g f)
  = discreteGraph_ g ++ (if isDiscreteFactor f then [f] else []).
Proof.
  unfold push_back.
  destruct (isDiscreteFactor f), (isDCFactor f); simpl; by rewrite ?app_nil_r.
Qed.

Lemma push_back_dcGraph g f :
  dcGraph_ (push_back g f) = dcGraph_ g ++ (if isDCFactor f then [f] else []).
Proof.
  unfold push_back.
  destruct (isDiscreteFactor f), (isDCFactor f); simpl; by rewrite ?app_nil_r.
Qed.

Lemma push_back_factorGraph g f : factorGraph_ (push_back g f) = factorGraph_ g.
Proof. unfold push_back. by destruct (isDiscreteFactor f), (isDCFactor f). Qed.

Lemma push_back_factors g f :
  factors_ (push_back g f)
  = factors_ g ++ (if isDiscreteFactor f then [f] else [])
               ++ (if isDCFactor f then [f] else []).
Proof.
  unfold push_back.
  destruct (isDiscreteFactor f), (isDCFactor f); simpl;
    by rewrite <- ?app_assoc, ?app_nil_r.
Qed.

Lemma push_back_range_snoc g fs f :
  push_back_range g (fs ++ [f]) = push_back (push_back_range g fs) f.
Proof. unfold push_back_range. by rewrite foldl_snoc. Qed.

Lemma push_back_range_discreteGraph g fs :
  discreteGraph_ (push_back_range g fs)
  = discreteGraph_ g ++ filter (λ f, isDiscreteFactor f) fs.
Proof.
  induction fs as [|f fs IH] using rev_ind.
  - simpl. by rewrite app_nil_r.
  - rewrite push_back_range_snoc, push_back_discreteGraph, IH, filter_app.
    rewrite <- app_assoc. f_equal. f_equal.
    rewrite filter_cons, filter_nil. by destruct (isDiscreteFactor f).
Qed.

Lemma push_back_range_dcGraph g fs :
  dcGraph_ (push_back_range g fs) = dcGraph_ g ++ filter (λ f, isDCFactor f) fs.
Proof.
  induction fs as [|f fs IH] using rev_ind.
  - simpl. by rewrite app_nil_r.
  - rewrite push_back_range_snoc, push_back_dcGraph, IH, filter_app.
    rewrite <- app_assoc. f_equal. f_equal.
    rewrite filter_cons, filter_nil. by destruct (isDCFactor f).
Qed.

Lemma push_back_range_factorGraph g fs :
  factorGraph_ (push_back_range g fs) = factorGraph_ g.
Proof.
  induction fs as [|f fs IH] using rev_ind; [done|].
  by rewrite push_back_range_snoc, push_back_factorGraph.
Qed.

Lemma push_back_range_size g fs :
  size (push_back_range g fs)
  = size g + length (filter (λ f, isDiscreteFactor f) fs)
           + length (filter (λ f, isDCFactor f) fs).
Proof.
  unfold size. induction fs as [|f fs IH] using rev_ind.
  - simpl. lia.
  - rewrite push_back_range_snoc, push_back_factors, !length_app, IH.
    rewrite !filter_app, !length_app, !filter_cons, !filter_nil.
    destruct (isDiscreteFactor f), (isDCFactor f); simpl; lia.
Qed.

(** C4 (as amended): [push_back] knows two of the three sub-collections.
    It files the factor into the discrete one when the discrete cast
    succeeds and into the DC one when the DC cast succeeds (both of them
    when both succeed), at the end; it never writes the continuous one,
    whatever the factor is.  Pushing the same object twice leaves it
    twice, side by side, in each of the two that match; over a sequence
    the relative order is kept in each of them. *)
Theorem push_back_files_into_every_match g f fs :
  discreteGraph_ (push_back g f)
    = discreteGraph_ g ++ (if isDiscreteFactor f then [f] else [])
  ∧ dcGraph_ (push_back g f)
    = dcGraph_ g ++ (if isDCFactor f then [f] else [])
  ∧ factorGraph_ (push_back g f) = factorGraph_ g
  ∧ discreteGraph_ (push_back (push_back g f) f)
    = discreteGraph_ g ++ (if isDiscreteFactor f then [f; f] else [])
  ∧ dcGraph_ (push_back (push_back g f) f)
    = dcGraph_ g ++ (if isDCFactor f then [f; f] else [])
  ∧ discreteGraph_ (push_back_range g fs)
    = discreteGraph_ g ++ filter (λ f, isDiscreteFactor f) fs
  ∧ dcGraph_ (push_back_range g fs)
    = dcGraph_ g ++ filter (λ f, isDCFactor f) fs.
Proof.
  repeat split.
  - apply push_back_discreteGraph.
  - apply push_back_dcGraph.
  - apply push_back_factorGraph.
  - rewrite !push_back_discreteGraph, <- app_assoc.
    by destruct (isDiscreteFactor f).
  - rewrite !push_back_dcGraph, <- app_assoc.
    by destruct (isDCFactor f).
  - apply push_back_range_discreteGraph.
  - apply push_back_range_dcGraph.
Qed.

(** C9: a factor for which neither cast succeeds is dropped: the call
    returns normally and the container is what it was. *)
Theorem push_back_drops_unclassified g f :
  isDiscreteFactor f = false →
  asDCFactor f = None →
  invoke (call_push_back f) g = (returned_void, g).
Proof.
  intros Hd Hdc. simpl. unfold push_back, isDCFactor.
  by rewrite Hd, Hdc.
Qed.

(** C3 (as amended): [size()] is the length of the flat list, which grows
    by one at every filing: over a sequence added through the router it
    grows by the number of discrete casts that succeed plus the number of
    DC casts that succeed, so a factor filed twice counts twice; the two
    sub-collection counts grow separately, and on a container that started
    empty [size()] is their sum. *)
Theorem size_counts_every_filing g fs :
  size (push_back_range g fs)
    = size g + length (filter (λ f, isDiscreteFactor f) fs)
             + length (filter (λ f, isDCFactor f) fs)
  ∧ nrDiscreteFactors (push_back_range g fs)
    = nrDiscreteFactors g + length (filter (λ f, isDiscreteFactor f) fs)
  ∧ nrDcFactors (push_back_range g fs)
    = nrDcFactors g + length (filter (λ f, isDCFactor f) fs)
  ∧ size (push_back_range empty_graph fs)
    = nrDiscreteFactors (push_back_range empty_graph fs)
      + nrDcFactors (push_back_range empty_graph fs).
Proof.
  unfold nrDiscreteFactors, nrDcFactors.
  rewrite !push_back_range_size, !push_back_range_discreteGraph,
    !push_back_range_dcGraph, !length_app.
  simpl. repeat split; lia.
Qed.

(** ** The flat list *)

Lemma filed_app_continuous flat fg dg dc l :
  filed flat fg dg dc → filed (flat ++ l) (fg ++ l) dg dc.
Proof.
  intros H. induction l as [|x l IH] using rev_ind.
  - by rewrite !app_nil_r.
  - rewrite !app_assoc. by constructor.
Qed.

Lemma filed_app_discrete flat fg dg dc l :
  filed flat fg dg dc → filed (flat ++ l) fg (dg ++ l) dc.
Proof.
  intros H. induction l as [|x l IH] using rev_ind.
  - by rewrite !app_nil_r.
  - rewrite !app_assoc. by constructor.
Qed.

Lemma filed_app_dc flat fg dg dc l :
  filed flat fg dg dc → filed (flat ++ l) fg dg (dc ++ l).
Proof.
  intros H. induction l as [|x l IH] using rev_ind.
  - by rewrite !app_nil_r.
  - rewrite !app_assoc. by constructor.
Qed.

Lemma filed_length flat fg dg dc :
  filed flat fg dg dc → length flat = length fg + length dg + length dc.
Proof. induction 1; rewrite ?length_app; simpl; lia. Qed.

Lemma filed_Permutation flat fg dg dc :
  filed flat fg dg dc → flat ≡ₚ fg ++ dg ++ dc.
Proof.
  induction 1 as [|flat fg dg dc f _ IH|flat fg dg dc f _ IH|flat fg dg dc f _ IH];
    [done|..]; rewrite IH.
  - rewrite <- !app_assoc. apply Permutation_app_head.
    rewrite (Permutation_app_comm [f]). by rewrite app_assoc.
  - rewrite <- !app_assoc. do 2 apply Permutation_app_head.
    apply Permutation_app_comm.
  - by rewrite <- !app_assoc.
Qed.

Lemma filed_sublist flat fg dg dc :
  filed flat fg dg dc →
  fg `sublist_of` flat ∧ dg `sublist_of` flat ∧ dc `sublist_of` flat.
Proof.
  induction 1 as [|flat fg dg dc f _ (?&?&?)|flat fg dg dc f _ (?&?&?)
                  |flat fg dg dc f _ (?&?&?)];
    repeat split;
    try (apply sublist_app; [done|apply sublist_skip, sublist_nil]);
    try (by apply sublist_inserts_r);
    apply sublist_nil.
Qed.

Lemma make_consistent fg dg dc : consistent (make fg dg dc).
Proof.
  unfold consistent, make. simpl.
  apply (filed_app_dc _ _ _ []), (filed_app_discrete _ _ [] []),
    (filed_app_continuous [] [] [] []).
  constructor.
Qed.

Lemma push_discrete_consistent g f : consistent g → consistent (push_discrete g f).
Proof. intros H. by apply filed_discrete. Qed.

Lemma push_dc_consistent g f : consistent g → consistent (push_dc g f).
Proof. intros H. by apply filed_dc. Qed.

Lemma push_back_consistent g f : consistent g → consistent (push_back g f).
Proof.
  intros H. unfold push_back.
  destruct (isDiscreteFactor f), (isDCFactor f);
    auto using push_discrete_consistent, push_dc_consistent.
Qed.

Lemma push_back_range_consistent g fs :
  consistent g → consistent (push_back_range g fs).
Proof.
  intros H. induction fs as [|f fs IH] using rev_ind; [done|].
  rewrite push_back_range_snoc. by apply push_back_consistent.
Qed.

(** C10: the flat list of the base logs every filing.  The constructor
    establishes the discipline and [push_discrete], [push_dc], [push_back]
    (one factor or a range) keep it; each filing appends the factor to the
    flat list, twice when the factor goes to two sub-collections.  Under
    the discipline the flat list is a rearrangement of the three
    sub-collections taken together, each of them appears in it in its own
    order, and [size()] (the length of the flat list) is the sum of the
    three counts. *)
Theorem flat_list_logs_every_filing g f fs fg dg dc :
  consistent g →
  consistent (make fg dg dc)
  ∧ factors_ (make fg dg dc) = fg ++ dg ++ dc
  ∧ consistent (push_discrete g f)
  ∧ consistent (push_dc g f)
  ∧ consistent (push_back g f)
  ∧ consistent (push_back_range g fs)
  ∧ factors_ (push_discrete g f) = factors_ g ++ [f]
  ∧ factors_ (push_dc g f) = factors_ g ++ [f]
  ∧ factors_ (push_back g f)
    = factors_ g ++ (if isDiscreteFactor f then [f] else [])
                 ++ (if isDCFactor f then [f] else [])
  ∧ factors_ g ≡ₚ factorGraph_ g ++ discreteGraph_ g ++ dcGraph_ g
  ∧ factorGraph_ g `sublist_of` factors_ g
  ∧ discreteGraph_ g `sublist_of` factors_ g
  ∧ dcGraph_ g `sublist_of` factors_ g
  ∧ size g = length (factorGraph_ g) + nrDiscreteFactors g + nrDcFactors g.
Proof.
  intros H.
  destruct (filed_sublist _ _ _ _ H) as (Hfg & Hdg & Hdc).
  split; [apply make_consistent|].
  split; [simpl; by rewrite <- app_assoc|].
  split; [by apply push_discrete_consistent|].
  split; [by apply push_dc_consistent|].
  split; [by apply push_back_consistent|].
  split; [by apply push_back_range_consistent|].
  split; [done|]. split; [done|].
  split; [apply push_back_factors|].
  split; [by apply filed_Permutation|].
  repeat split; try done.
  by apply filed_length.
Qed.

(** ** [clear] *)

Lemma clear_members g :
  factorGraph_ (clear g) = [] ∧ discreteGraph_ (clear g) = []
  ∧ dcGraph_ (clear g) = [] ∧ factors_ (clear g) = factors_ g.
Proof. done. Qed.

Lemma clear_size g : size (clear g) = size g.
Proof. done. Qed.

(** C7: what [clear()] does on every container.  The three members are
    emptied, so the two counts are 0; the flat list of the base is left
    alone, so [size()], [empty()] and [operator[]] answer as before the
    call. *)
Theorem clear_resets_members_not_base g i :
  factorGraph_ (clear g) = []
  ∧ discreteGraph_ (clear g) = []
  ∧ dcGraph_ (clear g) = []
  ∧ nrDiscreteFactors (clear g) = 0
  ∧ nrDcFactors (clear g) = 0
  ∧ size (clear g) = size g
  ∧ empty (clear g) = empty g
  ∧ at_ (clear g) i = at_ g i.
Proof.
  destruct (clear_members g) as (Hfg & Hdg & Hdc & Hflat).
  unfold nrDiscreteFactors, nrDcFactors, size, empty, at_.
  rewrite Hfg, Hdg, Hdc, Hflat. by repeat split.
Qed.

Lemma clear_breaks_consistency g : factors_ g ≠ [] → ¬ consistent (clear g).
Proof.
  intros Hne H. apply filed_length in H. simpl in H.
  destruct (factors_ g); [done|discriminate].
Qed.

(** ** [equals] *)

Lemma graph_equals_length l1 l2 tol :
  graph_equals l1 l2 tol = true → length l1 = length l2.
Proof.
  unfold graph_equals. intros [H _]%andb_prop.
  by apply bool_decide_eq_true in H.
Qed.

Lemma graph_equals_app l1 l2 r1 r2 tol :
  length l1 = length l2 →
  graph_equals (l1 ++ r1) (l2 ++ r2) tol
  = graph_equals l1 l2 tol && graph_equals r1 r2 tol.
Proof.
  intros Hlen. unfold graph_equals.
  rewrite zip_with_app by done. rewrite forallb_app.
  rewrite (bool_decide_ext (length (l1 ++ r1) = length (l2 ++ r2))
             (length r1 = length r2)) by (rewrite !length_app; lia).
  rewrite (bool_decide_eq_true_2 (length l1 = length l2)) by done.
  simpl. by rewrite !andb_assoc, (andb_comm (bool_decide _)).
Qed.

Lemma equals_unfold this other tol :
  equals this other tol = true
  ↔ graph_equals (factors_ this) (factors_ other) tol = true
    ∧ graph_equals (discreteGraph_ this) (discreteGraph_ other) tol = true
    ∧ graph_equals (dcGraph_ this) (dcGraph_ other) tol = true
    ∧ graph_equals (factorGraph_ this) (factorGraph_ other) tol = true.
Proof. unfold equals. rewrite !andb_true_iff. tauto. Qed.



(** ** [discreteKeys] *)

Implicit Types (k : DiscreteKey) (l result : DiscreteKeys).

Lemma filter_Forall_id {A} (P : A → Prop) `{!∀ x, Decision (P x)} (xs : list A) :
  Forall P xs → filter P xs = xs.
Proof. induction 1; [done|]. rewrite filter_cons_True by done. by f_equal. Qed.

Lemma elem_of_first_occurrences k l : k ∈ first_occurrences l ↔ k ∈ l.
Proof.
  induction l as [|x l IH]; [done|]. simpl.
  rewrite !elem_of_cons, list_elem_of_filter, IH.
  destruct (decide (k = x)); tauto.
Qed.

Lemma NoDup_first_occurrences l : NoDup (first_occurrences l).
Proof.
  induction l as [|x l IH]; simpl; [constructor|].
  constructor; [|by apply NoDup_filter].
  rewrite list_elem_of_filter. by intros [? _].
Qed.

Lemma first_occurrences_NoDup l : NoDup l → first_occurrences l = l.
Proof.
  induction 1 as [|x l Hx _ IH]; [done|]. simpl. rewrite IH. f_equal.
  apply filter_Forall_id, Forall_forall. intros y Hy ->. done.
Qed.

Lemma filter_first_occurrences (P : DiscreteKey → Prop) `{!∀ k, Decision (P k)} l :
  filter P (first_occurrences l) = first_occurrences (filter P l).
Proof.
  induction l as [|x l IH]; [done|]. simpl.
  rewrite !filter_cons. destruct (decide (P x)) as [HP|HP]; simpl.
  - f_equal. rewrite <- IH. rewrite !list_filter_filter.
    apply list_filter_iff. tauto.
  - rewrite <- IH, list_filter_filter. apply list_filter_iff.
    intros y. split; [tauto|]. intros Hy. split; [done|]. by intros ->.
Qed.

Lemma first_occurrences_app l1 l2 :
  first_occurrences (l1 ++ l2)
  = first_occurrences l1 ++ first_occurrences (filter (λ k, k ∉ l1) l2).
Proof.
  induction l1 as [|x l1 IH]; simpl.
  - f_equal. symmetry. apply filter_Forall_id, Forall_forall.
    intros y _. apply not_elem_of_nil.
  - f_equal. rewrite IH, filter_app. f_equal.
    rewrite filter_first_occurrences, list_filter_filter. f_equal.
    apply list_filter_iff. intros y. rewrite not_elem_of_cons. tauto.
Qed.

Lemma foldl_insert_unique result l :
  foldl insert_unique result l
  = result ++ first_occurrences (filter (λ k, k ∉ result) l).
Proof.
  revert result. induction l as [|x l IH]; intros result; simpl.
  - by rewrite app_nil_r.
  - rewrite IH, filter_cons. unfold insert_unique.
    destruct (decide (x ∈ result)) as [Hin|Hin].
    + rewrite bool_decide_eq_true_2 by done.
      by destruct (decide (x ∉ result)).
    + rewrite bool_decide_eq_false_2 by done.
      destruct (decide (x ∉ result)); [|done]. simpl.
      rewrite <- app_assoc. simpl. do 2 f_equal.
      rewrite filter_first_occurrences, list_filter_filter. f_equal.
      apply list_filter_iff. intros y.
      rewrite not_elem_of_app, list_elem_of_singleton. tauto.
Qed.

Local Abbreviation discrete_keys g :=
  (DiscreteFactorGraph_discreteKeys (discreteGraph_ g)).
Local Abbreviation dc_keys g := (DCFactorGraph_discreteKeys (dcGraph_ g)).

(** X21: [discreteKeys()] is the key list of the discrete graph, as that
    graph reports it, followed by the keys of the DC graph's list that are
    not yet present, each once, in order of first appearance; keys are
    compared as [DiscreteKey]s, that is as pairs of a variable and a
    cardinality.  The result holds exactly the keys of the two lists.  It
    holds no key twice, and is the list of first appearances of the two
    lists taken together, exactly when the list reported by the discrete
    graph holds no key twice. *)
Theorem discreteKeys_appends_new_dc_keys g :
  discreteKeys g
    = discrete_keys g
      ++ first_occurrences (filter (λ k, k ∉ discrete_keys g) (dc_keys g))
  ∧ (∀ k, k ∈ discreteKeys g ↔ k ∈ discrete_keys g ∨ k ∈ dc_keys g)
  ∧ (NoDup (discreteKeys g) ↔ NoDup (discrete_keys g))
  ∧ (discreteKeys g = first_occurrences (discrete_keys g ++ dc_keys g)
     ↔ NoDup (discrete_keys g)).
Proof.
  unfold discreteKeys. rewrite foldl_insert_unique.
  split; [done|]. split; [|split].
  - intros k.
    rewrite elem_of_app, elem_of_first_occurrences, list_elem_of_filter.
    destruct (decide (k ∈ discrete_keys g)); tauto.
  - rewrite NoDup_app. split; [tauto|]. intros Hnd.
    split; [done|]. split; [|apply NoDup_first_occurrences].
    intros k Hk. rewrite elem_of_first_occurrences, list_elem_of_filter. tauto.
  - rewrite first_occurrences_app. split.
    + intros H%app_inv_tail. rewrite H. apply NoDup_first_occurrences.
    + intros Hnd. by rewrite (first_occurrences_NoDup (discrete_keys g)).
Qed.

(** ** [linearize] *)

Lemma linearize_loop (continuousValues : Values) acc fs :
  foldl (λ acc dcFactor,
           if isGaussianMixture dcFactor then acc ++ [dcFactor]
           else acc ++ [DCFactor_linearize dcFactor continuousValues])
        acc fs
  = acc ++ ((λ f, if isGaussianMixture f then f
                  else DCFactor_linearize f continuousValues) <$> fs).
Proof.
  revert acc. induction fs as [|f fs IH]; intros acc; simpl.
  - by rewrite app_nil_r.
  - rewrite IH. destruct (isGaussianMixture f); by rewrite <- app_assoc.
Qed.

Lemma linearize_dcGraph g v :
  dcGraph_ (linearize g v)
  = (λ f, if isGaussianMixture f then f else DCFactor_linearize f v) <$> dcGraph_ g.
Proof. unfold linearize. simpl. by rewrite linearize_loop. Qed.

(** C6: [linearize] hands back the receiver as it was and returns a
    container built afresh.  Its DC sub-collection has the size of the
    receiver's and, position by position, holds the very same object where
    the receiver holds a [DCGaussianMixtureFactor] (so the same scope and
    the same tree), and the linearization at the point of the receiver's
    entry otherwise; its discrete sub-collection is the receiver's. *)
Theorem linearize_passes_mixtures_through g v :
  invoke (call_linearize v) g = (returned_graph (linearize g v), g)
  ∧ dcGraph_ (linearize g v)
    = (λ f, if isGaussianMixture f then f else DCFactor_linearize f v) <$> dcGraph_ g
  ∧ nrDcFactors (linearize g v) = nrDcFactors g
  ∧ (∀ i f t, dcGraph_ g !! i = Some f → asGaussianMixture f = Some t →
       dcGraph_ (linearize g v) !! i = Some f)
  ∧ (∀ i f, dcGraph_ g !! i = Some f → asGaussianMixture f = None →
       dcGraph_ (linearize g v) !! i = Some (DCFactor_linearize f v))
  ∧ discreteGraph_ (linearize g v) = discreteGraph_ g.
Proof.
  split; [done|]. split; [apply linearize_dcGraph|].
  unfold nrDcFactors. rewrite linearize_dcGraph.
  split; [by rewrite length_fmap|]. repeat split.
  - intros i f t Hi Ht. rewrite list_lookup_fmap, Hi. simpl.
    unfold isGaussianMixture. by rewrite Ht.
  - intros i f Hi Hf. rewrite list_lookup_fmap, Hi. simpl.
    unfold isGaussianMixture. by rewrite Hf.
Qed.

(** ** Decision trees *)

Lemma eval_tree_map {A B} (h : A → B) (t : FDT cardinality A) a :
  eval (tree_map h t) a = h (eval t a).
Proof. induction t as [v|k bs IH]; simpl; [done|apply IH]. Qed.

Lemma eval_restrict {V} (t : FDT cardinality V) a (k : Key) :
  eval (restrict k (a k) t) a = eval t a.
Proof.
  induction t as [v|k' bs IH]; simpl; [done|].
  destruct (decide (k = k')) as [e|ne].
  - destruct e. simpl. apply IH.
  - simpl. apply IH.
Qed.

Lemma eval_merge {A B C} (op : A → B → C) (t : FDT cardinality A) (u : FDT cardinality B) a :
  eval (merge op t u) a = op (eval t a) (eval u a).
Proof.
  revert u. induction t as [v|k bs IH]; intros u; simpl.
  - apply eval_tree_map.
  - rewrite IH. by rewrite eval_restrict.
Qed.

(** ** [sum] *)

Lemma eval_Sum_add (s : Sum cardinality GaussianFactor) (t : FDT cardinality GaussianFactor) a :
  eval (Sum_add s t) a = eval s a ++ [eval t a].
Proof. unfold Sum_add. by rewrite eval_merge. Qed.

Lemma eval_foldl_Sum_add (acc : Sum cardinality GaussianFactor) (ts : list (FDT cardinality GaussianFactor)) a :
  eval (foldl Sum_add acc ts) a = eval acc a ++ ((λ t, eval t a) <$> ts).
Proof.
  revert acc. induction ts as [|t ts IH]; intros acc; simpl.
  - by rewrite app_nil_r.
  - rewrite IH, eval_Sum_add. by rewrite <- app_assoc.
Qed.

Lemma sum_loop_cases (acc : Sum cardinality GaussianFactor) fs :
  (Forall (λ f, is_Some (asGaussianMixture f)) fs
   ∧ ∃ s, sum_loop acc fs = inr s)
  ∨ (Exists (λ f, asGaussianMixture f = None) fs
     ∧ sum_loop acc fs = inl UnsupportedFactorKind).
Proof.
  revert acc. induction fs as [|f fs IH]; intros acc; simpl.
  - left. split; [constructor|by eexists].
  - destruct (asGaussianMixture f) as [t|] eqn:Hf.
    + destruct (IH (Sum_add acc t)) as [[Hall Hs]|[Hex He]].
      * left. split; [|done]. constructor; [by rewrite Hf|done].
      * right. split; [by apply Exists_cons_tl|done].
    + right. split; [by apply Exists_cons_hd|done].
Qed.

Lemma mixtures_or_not fs :
  Forall (λ f, is_Some (asGaussianMixture f)) fs →
  Exists (λ f, asGaussianMixture f = None) fs → False.
Proof.
  intros Hall Hex. apply Exists_exists in Hex as (f & Hin & Hf).
  rewrite Forall_forall in Hall. specialize (Hall f Hin).
  rewrite Hf in Hall. by destruct Hall.
Qed.

Lemma sum_loop_mapM (acc : Sum cardinality GaussianFactor) fs :
  sum_loop acc fs
  = match mapM asGaussianMixture fs with
    | Some ts => inr (foldl Sum_add acc ts)
    | None => inl UnsupportedFactorKind
    end.
Proof.
  revert acc. induction fs as [|f fs IH]; intros acc; simpl; [done|].
  destruct (asGaussianMixture f) as [t|]; simpl; [|done].
  rewrite IH. by destruct (mapM asGaussianMixture fs).
Qed.

(** C1: [sum()] casts every entry of the DC sub-collection to a mixture
    factor; when all the casts succeed it returns the left fold, in the
    order of the sub-collection, of the merge with append-to-collection
    over the factors' trees, started from the tree with no variable and
    the single leaf holding the empty collection (and when a cast fails it
    throws).  For every joint assignment a merge appends the factor's leaf
    for that assignment to the running one, so the result holds, per
    assignment, the leaves of the factors' trees for it, in the same
    order. *)
Theorem sum_folds_the_mixtures g :
  sum g
    = match mapM asGaussianMixture (dcGraph_ g) with
      | Some ts => inr (foldl Sum_add Sum_default ts)
      | None => inl UnsupportedFactorKind
      end
  ∧ labels (Sum_default : Sum cardinality GaussianFactor) = []
  ∧ leaves (Sum_default : Sum cardinality GaussianFactor) = [[]]
  ∧ (∀ (s : Sum cardinality GaussianFactor) t a,
       eval (Sum_add s t) a = append_to_collection (eval s a) (eval t a))
  ∧ (∀ (ts : list (FDT cardinality GaussianFactor)) a,
       eval (foldl Sum_add Sum_default ts) a = (λ t, eval t a) <$> ts).
Proof.
  split; [apply sum_loop_mapM|].
  split; [done|]. split; [done|].
  split; [intros; apply eval_Sum_add|].
  intros ts a. by rewrite eval_foldl_Sum_add.
Qed.

(** C2: [sum()] throws exactly when some entry of the DC sub-collection is
    not a [DCGaussianMixtureFactor]; what it throws is the one exception of
    the loop, nothing is returned besides, and the receiver is what it
    was.  When every entry is a mixture factor it returns a tree. *)
Theorem sum_throws_iff_an_entry_is_no_mixture g :
  (invoke call_sum g = (thrown UnsupportedFactorKind, g)
   ↔ Exists (λ f, asGaussianMixture f = None) (dcGraph_ g))
  ∧ ((∃ s, invoke call_sum g = (returned_Sum s, g))
     ↔ Forall (λ f, is_Some (asGaussianMixture f)) (dcGraph_ g))
  ∧ (∀ e, (invoke call_sum g).1 = thrown e → e = UnsupportedFactorKind)
  ∧ (invoke call_sum g).2 = g.
Proof.
  simpl. unfold sum.
  destruct (sum_loop_cases Sum_default (dcGraph_ g)) as [[Hall [s Hs]]|[Hex He]].
  - rewrite Hs. repeat split; try done.
    + intros Hex. destruct (mixtures_or_not _ Hall Hex).
    + by eexists.
  - rewrite He. repeat split; try done.
    + intros [s Hs]. done.
    + intros Hall. destruct (mixtures_or_not _ Hall Hex).
    + intros e. by intros [= <-].
Qed.

(** * Further properties *)

(** ** The router, continued *)

Lemma graph_eta g :
  g = mkGraph _ _ (factors_ g) (factorGraph_ g) (discreteGraph_ g) (dcGraph_ g).
Proof. by destruct g. Qed.

Lemma push_back_range_factors g fs :
  factors_ (push_back_range g fs) = factors_ g ++ (fs ≫= filings).
Proof.
  induction fs as [|f fs IH] using rev_ind.
  - simpl. by rewrite app_nil_r.
  - rewrite push_back_range_snoc, push_back_factors, IH, bind_app.
    rewrite <- !app_assoc. f_equal. f_equal.
    rewrite bind_cons. simpl. by rewrite !app_nil_r.
Qed.

(** X1: over a range, the flat list of the base grows by the filings of
    each factor in turn: nothing for a factor that passes no cast, the
    factor once for one cast, twice side by side for both; [operator[]]
    reads the receiver's entries at their old indices and the new entries
    after them. *)
Theorem push_back_range_flat_list g fs i :
  factors_ (push_back_range g fs) = factors_ g ++ (fs ≫= filings)
  ∧ (i < size g → at_ (push_back_range g fs) i = at_ g i)
  ∧ at_ (push_back_range g fs) (size g + i) = (fs ≫= filings) !! i.
Proof.
  unfold at_, size. rewrite push_back_range_factors. repeat split.
  - intros Hi. by apply lookup_app_l.
  - rewrite lookup_app_r by lia. f_equal. lia.
Qed.

Lemma Forall_filter_bool {A} (p : A → bool) (xs : list A) :
  Forall (λ x, p x) (filter (λ x, p x) xs).
Proof. apply Forall_forall. intros x Hx. by apply list_elem_of_filter in Hx as [? _]. Qed.

(** X2: the router keeps the typing of the sub-collections: after any
    range of [push_back]s every entry of the discrete graph passes the
    discrete cast and every entry of the DC graph passes the DC cast; the
    continuous graph is never written. *)
Theorem push_back_range_well_typed g fs :
  well_typed g →
  well_typed (push_back_range g fs)
  ∧ factorGraph_ (push_back_range g fs) = factorGraph_ g.
Proof.
  intros [Hd Hdc]. unfold well_typed.
  rewrite push_back_range_discreteGraph, push_back_range_dcGraph,
    push_back_range_factorGraph.
  repeat split; try done; apply Forall_app;
    (split; [done|apply Forall_filter_bool]).
Qed.

Lemma filter_bool_all {A} (p : A → bool) (xs : list A) :
  Forall (λ x, p x = true) xs → filter (λ x, p x) xs = xs.
Proof.
  intros H. apply filter_Forall_id. eapply Forall_impl; [exact H|].
  intros x Hx. simpl. by rewrite Hx.
Qed.

Lemma filter_bool_none {A} (p : A → bool) (xs : list A) :
  Forall (λ x, p x = false) xs → filter (λ x, p x) xs = [].
Proof.
  induction 1 as [|x xs Hx _ IH]; [done|].
  rewrite filter_cons, IH. destruct (decide (p x)) as [Hp|]; [|done].
  by rewrite Hx in Hp.
Qed.

Lemma bind_filings_single fs :
  Forall (λ f, xorb (isDiscreteFactor f) (isDCFactor f) = true) fs →
  fs ≫= filings = fs.
Proof.
  induction 1 as [|f fs Hf _ IH]; [done|].
  rewrite bind_cons, IH. unfold filings.
  by destruct (isDiscreteFactor f), (isDCFactor f).
Qed.

(** X3: the router and the three-graph constructor agree: pushing a range
    of factors that are discrete and not DC, followed by factors that are
    DC and not discrete, onto an empty container gives the very container
    the constructor builds from the two lists and an empty continuous
    graph. *)
Theorem push_back_range_is_make dg dc :
  Forall (λ f, isDiscreteFactor f = true ∧ isDCFactor f = false) dg →
  Forall (λ f, isDiscreteFactor f = false ∧ isDCFactor f = true) dc →
  push_back_range empty_graph (dg ++ dc) = make [] dg dc.
Proof.
  intros Hdg Hdc.
  rewrite (graph_eta (push_back_range _ _)).
  rewrite push_back_range_factors, push_back_range_discreteGraph,
    push_back_range_dcGraph, push_back_range_factorGraph.
  unfold make. simpl. rewrite !filter_app.
  rewrite bind_filings_single.
  2:{ apply Forall_app. split; (eapply Forall_impl; [eassumption|]);
        by intros f [-> ->]. }
  rewrite (filter_bool_all isDiscreteFactor dg)
    by (eapply Forall_impl; [exact Hdg|]; by intros f [? _]).
  rewrite (filter_bool_none isDiscreteFactor dc)
    by (eapply Forall_impl; [exact Hdc|]; by intros f [? _]).
  rewrite (filter_bool_none isDCFactor dg)
    by (eapply Forall_impl; [exact Hdg|]; by intros f [_ ?]).
  rewrite (filter_bool_all isDCFactor dc)
    by (eapply Forall_impl; [exact Hdc|]; by intros f [_ ?]).
  by rewrite app_nil_r.
Qed.

(** ** [sum], continued *)

Lemma sum_loop_app (acc : Sum cardinality GaussianFactor) fs1 fs2 :
  sum_loop acc (fs1 ++ fs2)
  = match sum_loop acc fs1 with
    | inl e => inl e
    | inr s => sum_loop s fs2
    end.
Proof.
  revert acc. induction fs1 as [|f fs1 IH]; intros acc; simpl; [done|].
  by destruct (asGaussianMixture f).
Qed.

(** X4: [sum()] after one more [push_dc] is [sum()] before it, carried one
    step on: an exception of the old container is thrown again, otherwise
    the new factor is merged into the old result when it is a mixture
    factor, and the exception of the loop is thrown when it is not. *)
Theorem sum_after_push_dc g f :
  sum (push_dc g f)
  = match sum g with
    | inl e => inl e
    | inr s =>
        match asGaussianMixture f with
        | Some t => inr (Sum_add s t)
        | None => inl UnsupportedFactorKind
        end
    end.
Proof.
  unfold sum. simpl. rewrite sum_loop_app.
  destruct (sum_loop Sum_default (dcGraph_ g)); [done|]. simpl.
  by destruct (asGaussianMixture f).
Qed.

(** X5: whatever tree [sum()] returns holds, for every joint assignment, a
    collection with exactly one linear factor per entry of the DC
    sub-collection. *)
Theorem sum_leaf_sizes g (s : Sum cardinality GaussianFactor) a :
  sum g = inr s →
  length (eval s a) = nrDcFactors g.
Proof.
  unfold sum, nrDcFactors. rewrite sum_loop_mapM.
  destruct (mapM asGaussianMixture (dcGraph_ g)) as [ts|] eqn:Hts; [|done].
  intros [= <-]. rewrite eval_foldl_Sum_add. simpl.
  rewrite length_fmap. symmetry. by eapply length_mapM.
Qed.

Lemma mapM_omap {A B} (h : A → option B) (xs : list A) (ys : list B) :
  mapM h xs = Some ys → ys = omap h xs.
Proof.
  revert ys. induction xs as [|x xs IH]; intros ys Hys.
  - by injection Hys as <-.
  - simpl in *. destruct (h x) as [y|]; [|done]. simpl in Hys.
    destruct (mapM h xs) as [ys'|]; [|done].
    injection Hys as <-. f_equal. by apply IH.
Qed.

Lemma mapM_Forall_is_Some {A B} (h : A → option B) (xs : list A) :
  Forall (λ x, is_Some (h x)) xs → mapM h xs = Some (omap h xs).
Proof.
  induction 1 as [|x xs [y Hy] _ IH]; [done|].
  simpl. rewrite Hy. simpl. by rewrite IH.
Qed.

Lemma mapM_Some_Forall {A B} (h : A → option B) (xs : list A) (ys : list B) :
  mapM h xs = Some ys → Forall (λ x, is_Some (h x)) xs.
Proof.
  rewrite mapM_Some. induction 1 as [|x y xs ys Hxy _ IH]; constructor; [|done].
  by rewrite Hxy.
Qed.

(** X6: the order of the DC sub-collection matters to [sum()] only inside
    the leaves: on two containers whose DC sub-collections hold the same
    entries in different orders, [sum()] returns on both or throws on both,
    and the two results hold, for every joint assignment, the same linear
    factors up to order. *)
Theorem sum_order_of_entries g g' (s : Sum cardinality GaussianFactor) :
  dcGraph_ g ≡ₚ dcGraph_ g' →
  sum g = inr s →
  ∃ s', sum g' = inr s' ∧ ∀ a, eval s a ≡ₚ eval s' a.
Proof.
  unfold sum. rewrite !sum_loop_mapM. intros Hperm.
  destruct (mapM asGaussianMixture (dcGraph_ g)) as [ts|] eqn:Hts; [|done].
  intros [= <-].
  pose proof (mapM_Some_Forall _ _ _ Hts) as Hall.
  rewrite Hperm in Hall.
  rewrite (mapM_Forall_is_Some _ _ Hall).
  eexists. split; [done|]. intros a.
  rewrite !eval_foldl_Sum_add. simpl.
  apply fmap_Permutation. rewrite (mapM_omap _ _ _ Hts).
  by apply omap_Permutation.
Qed.

(** X7: [sum()] of a container filled through the router sees only the
    factors that pass the DC cast, in the order they were added: factors
    that are discrete only, or pass no cast, change neither the result nor
    whether [sum()] throws. *)
Theorem sum_of_routed_factors fs :
  sum (push_back_range (empty_graph : HybridFactorGraph cardinality GaussianFactor) fs)
  = match mapM asGaussianMixture (filter (λ f, isDCFactor f) fs) with
    | Some ts => inr (foldl Sum_add Sum_default ts)
    | None => inl UnsupportedFactorKind
    end.
Proof.
  unfold sum. by rewrite sum_loop_mapM, push_back_range_dcGraph.
Qed.

(** ** [operator+=] of a linear factor *)

Lemma leaves_tree_map {A B} (h : A → B) (t : FDT cardinality A) :
  leaves (tree_map h t) = h <$> leaves t.
Proof.
  induction t as [x|k bs IH]; [done|]. cbn [leaves tree_map].
  generalize (enum (fin (cardinality k))). intros l.
  induction l as [|i l IHl]; [done|].
  rewrite !bind_cons, fmap_app, IH. by rewrite IHl.
Qed.

Lemma labels_tree_map {A B} (h : A → B) (t : FDT cardinality A) :
  labels (tree_map h t) = labels t.
Proof.
  induction t as [x|k bs IH]; [done|]. cbn [labels tree_map]. f_equal.
  generalize (enum (fin (cardinality k))). intros l.
  induction l as [|i l IHl]; [done|].
  rewrite !bind_cons, IH. by rewrite IHl.
Qed.

(** X8: adding a linear factor to a [Sum] keeps the tree and appends the
    factor to every leaf: the variables tested and the number of leaves are
    those of the tree before, each leaf is the old leaf followed by the
    factor, and so is the collection found for any assignment. *)
Theorem Sum_add_GaussianFactor_appends
    (s : Sum cardinality GaussianFactor) (factor : GaussianFactor) a :
  labels (Sum_add_GaussianFactor s factor) = labels s
  ∧ leaves (Sum_add_GaussianFactor s factor) = (λ graph, graph ++ [factor]) <$> leaves s
  ∧ length (leaves (Sum_add_GaussianFactor s factor)) = length (leaves s)
  ∧ eval (Sum_add_GaussianFactor s factor) a = eval s a ++ [factor].
Proof.
  unfold Sum_add_GaussianFactor. simpl.
  rewrite labels_tree_map, leaves_tree_map, length_fmap, eval_tree_map.
  done.
Qed.

(** X9: the two operators [+=] do not disturb each other: a linear factor
    and a mixture factor added to a [Sum] in either order give, for every
    joint assignment, the same collection up to the order of its last two
    entries. *)
Theorem Sum_add_orders
    (s : Sum cardinality GaussianFactor) (factor : GaussianFactor)
    (t : FDT cardinality GaussianFactor) a :
  eval (Sum_add (Sum_add_GaussianFactor s factor) t) a
    = eval s a ++ [factor; eval t a]
  ∧ eval (Sum_add_GaussianFactor (Sum_add s t) factor) a
    = eval s a ++ [eval t a; factor]
  ∧ eval (Sum_add (Sum_add_GaussianFactor s factor) t) a
    ≡ₚ eval (Sum_add_GaussianFactor (Sum_add s t) factor) a.
Proof.
  assert (H1 : eval (Sum_add (Sum_add_GaussianFactor s factor) t) a
               = eval s a ++ [factor; eval t a]).
  { rewrite eval_Sum_add. unfold Sum_add_GaussianFactor.
    rewrite eval_tree_map. by rewrite <- app_assoc. }
  assert (H2 : eval (Sum_add_GaussianFactor (Sum_add s t) factor) a
               = eval s a ++ [eval t a; factor]).
  { unfold Sum_add_GaussianFactor. rewrite eval_tree_map, eval_Sum_add.
    by rewrite <- app_assoc. }
  split; [done|]. split; [done|].
  rewrite H1, H2. apply Permutation_app_head, perm_swap.
Qed.

Lemma merge_Leaf_r {A B C} (op : A → B → C) (t : FDT cardinality A) (y : B) :
  leaves (merge op t (Leaf y)) = leaves (tree_map (λ x, op x y) t)
  ∧ labels (merge op t (Leaf y)) = labels (tree_map (λ x, op x y) t).
Proof.
  induction t as [x|k bs IH]; [done|].
  cbn [merge restrict leaves labels tree_map].
  generalize (enum (fin (cardinality k))). intros l.
  split; [|f_equal]; (induction l as [|i l IHl]; [done|]);
    rewrite !bind_cons, IHl; f_equal; apply IH.
Qed.

(** X10: a linear factor added by its own [+=] and the same factor added as
    a mixture factor that tests no variable give the same [Sum]: the same
    variables, the same leaves in the same order, the same collection for
    every assignment. *)
Theorem Sum_add_GaussianFactor_as_mixture
    (s : Sum cardinality GaussianFactor) (factor : GaussianFactor) a :
  labels (Sum_add s (Leaf factor)) = labels (Sum_add_GaussianFactor s factor)
  ∧ leaves (Sum_add s (Leaf factor)) = leaves (Sum_add_GaussianFactor s factor)
  ∧ eval (Sum_add s (Leaf factor)) a = eval (Sum_add_GaussianFactor s factor) a.
Proof.
  unfold Sum_add, Sum_add_GaussianFactor, append_to_collection. simpl.
  destruct (merge_Leaf_r (λ graph x, graph ++ [x]) s factor) as [Hl Hk].
  split; [exact Hk|]. split; [exact Hl|].
  by rewrite eval_merge, eval_tree_map.
Qed.

(** ** [linearize], continued *)

(** X11: the container [linearize] returns is always in step with itself,
    whatever the state of the receiver (also after [clear()]): its flat
    list is the linearized continuous graph followed by the discrete and
    the DC sub-collections, and its [size()] is the sum of the three
    counts. *)
Theorem linearize_result_consistent g v :
  consistent (linearize g v)
  ∧ factors_ (linearize g v)
    = factorGraph_ (linearize g v) ++ discreteGraph_ g ++ dcGraph_ (linearize g v)
  ∧ size (linearize g v)
    = length (NonlinearFactorGraph_linearize (factorGraph_ g) v)
      + nrDiscreteFactors g + nrDcFactors g.
Proof.
  split; [apply make_consistent|]. split.
  - unfold linearize. simpl. by rewrite <- app_assoc.
  - pose proof (filed_length _ _ _ _ (make_consistent
      (NonlinearFactorGraph_linearize (factorGraph_ g) v) (discreteGraph_ g)
      (dcGraph_ (linearize g v)))) as Hlen.
    unfold size, nrDiscreteFactors, nrDcFactors.
    unfold linearize in *. simpl in *. rewrite Hlen.
    rewrite linearize_loop. simpl. by rewrite length_fmap.
Qed.

Lemma linearize_entries_all_mixtures v fs :
  Forall (λ f, isGaussianMixture f = true) fs →
  (λ f, if isGaussianMixture f then f else DCFactor_linearize f v) <$> fs = fs.
Proof.
  induction 1 as [|f fs Hf _ IH]; [done|].
  rewrite fmap_cons, Hf. by f_equal.
Qed.

(** X12: on a container whose DC entries are all mixture factors,
    [linearize] returns the DC sub-collection as it is, so [sum()] of the
    linearized container is [sum()] of the receiver. *)
Theorem linearize_then_sum g v :
  Forall (λ f, isGaussianMixture f = true) (dcGraph_ g) →
  dcGraph_ (linearize g v) = dcGraph_ g
  ∧ sum (linearize g v) = sum g.
Proof.
  intros Hall.
  assert (Hdc : dcGraph_ (linearize g v) = dcGraph_ g).
  { rewrite linearize_dcGraph. by apply linearize_entries_all_mixtures. }
  split; [done|]. unfold sum. by rewrite Hdc.
Qed.

(** X13: when the linearization of a DC factor is always a mixture factor,
    [sum()] of a linearized container never throws, whatever DC factors the
    receiver holds. *)
Theorem sum_of_linearized_returns g v :
  (∀ f, isGaussianMixture (DCFactor_linearize f v) = true) →
  ∃ s, sum (linearize g v) = inr s.
Proof.
  intros Hlin. unfold sum. rewrite linearize_dcGraph.
  destruct (sum_loop_cases Sum_default
    ((λ f, if isGaussianMixture f then f else DCFactor_linearize f v)
       <$> dcGraph_ g)) as [[_ Hs]|[Hex _]]; [done|].
  exfalso. apply Exists_exists in Hex as (f' & Hin & Hnone).
  apply list_elem_of_fmap in Hin as (f & -> & _).
  destruct (isGaussianMixture f) eqn:Hf.
  - unfold isGaussianMixture in Hf. by rewrite Hnone in Hf.
  - specialize (Hlin f). unfold isGaussianMixture in Hlin.
    by rewrite Hnone in Hlin.
Qed.

(** ** [equals], continued *)

Lemma graph_equals_Forall2 fs fs' tol :
  graph_equals fs fs' tol = true
  ↔ Forall2 (λ f1 f2, factor_equals f1 f2 tol = true) fs fs'.
Proof.
  unfold graph_equals. rewrite andb_true_iff, bool_decide_eq_true. split.
  - intros [Hlen Hall]. revert fs' Hlen Hall.
    induction fs as [|f fs IH]; intros [|f' fs'] Hlen Hall; try done.
    simpl in *. apply andb_prop in Hall as [Hf Hall].
    constructor; [done|]. apply IH; [lia|done].
  - induction 1 as [|f f' fs fs' Hf _ [Hlen Hall]]; [done|].
    simpl. split; [lia|]. by rewrite Hf.
Qed.

Lemma graph_equals_app_r fs fs' r tol :
  graph_equals r r tol = true →
  graph_equals (fs ++ r) (fs' ++ r) tol = graph_equals fs fs' tol.
Proof.
  intros Hr. destruct (decide (length fs = length fs')) as [Hlen|Hlen].
  - rewrite graph_equals_app by done. by rewrite Hr, andb_true_r.
  - unfold graph_equals.
    rewrite (bool_decide_eq_false_2 (length fs = length fs')) by done.
    rewrite bool_decide_eq_false_2; [done|].
    rewrite !length_app. lia.
Qed.

Lemma graph_equals_sym fs fs' tol :
  (∀ f1 f2, factor_equals f1 f2 tol = factor_equals f2 f1 tol) →
  graph_equals fs fs' tol = graph_equals fs' fs tol.
Proof.
  intros Hsym. apply eq_true_iff_eq. rewrite !graph_equals_Forall2.
  rewrite <- (Forall2_flip _ fs' fs). unfold flip.
  split; intros HF; (eapply Forall2_impl; [exact HF|]);
    intros f1 f2; simpl; by rewrite Hsym.
Qed.

(** X14: [equals] is reflexive when the factors' own [equals] is: a
    container is equal to itself under every tolerance at which each
    factor is equal to itself. *)
Theorem equals_reflexive this tol :
  (∀ f, factor_equals f f tol = true) →
  equals this this tol = true.
Proof.
  intros Hrefl. apply equals_unfold.
  repeat split; apply graph_equals_Forall2, Forall_Forall2_diag, Forall_forall;
    by intros.
Qed.

(** X15: [equals] does not depend on which of the two containers is the
    receiver when the factors' own [equals] does not depend on which of
    the two factors is. *)
Theorem equals_symmetric this other tol :
  (∀ f1 f2, factor_equals f1 f2 tol = factor_equals f2 f1 tol) →
  equals this other tol = equals other this tol.
Proof.
  intros Hsym. unfold equals.
  by rewrite (graph_equals_sym (factors_ this)),
    (graph_equals_sym (discreteGraph_ this)),
    (graph_equals_sym (dcGraph_ this)),
    (graph_equals_sym (factorGraph_ this)).
Qed.

(** X16: two containers that [equals] accepts have the same [size()], the
    same number of discrete factors, of DC factors and of continuous
    factors. *)
Theorem equals_same_counts this other tol :
  equals this other tol = true →
  size this = size other
  ∧ nrDiscreteFactors this = nrDiscreteFactors other
  ∧ nrDcFactors this = nrDcFactors other
  ∧ length (factorGraph_ this) = length (factorGraph_ other).
Proof.
  intros (H1 & H2 & H3 & H4)%equals_unfold.
  unfold size, nrDiscreteFactors, nrDcFactors.
  repeat split; by eapply graph_equals_length.
Qed.

(** X17: pushing one and the same factor, equal to itself, onto two
    containers does not change what [equals] says of them. *)
Theorem equals_after_push_back this other f tol :
  factor_equals f f tol = true →
  equals (push_back this f) (push_back other f) tol = equals this other tol.
Proof.
  intros Hf. unfold equals.
  rewrite !push_back_factors, !push_back_discreteGraph, !push_back_dcGraph,
    !push_back_factorGraph.
  by rewrite !graph_equals_app_r
    by (destruct (isDiscreteFactor f), (isDCFactor f);
        unfold graph_equals; simpl; by rewrite ?Hf).
Qed.

(** X18: after [clear()] a container is [equals] to a freshly constructed
    one exactly when its flat list was empty, that is when [size()] was 0
    before the call. *)
Theorem equals_cleared_fresh g tol :
  equals (clear g) empty_graph tol = true ↔ size g = 0.
Proof.
  rewrite equals_unfold. simpl. unfold graph_equals, size.
  rewrite zip_with_nil_r. simpl. rewrite andb_true_r, bool_decide_eq_true.
  split; [by intros [? _]|]. intros Hlen. by repeat split.
Qed.

(** ** [discreteKeys], continued *)

Lemma first_occurrences_sublist l : first_occurrences l `sublist_of` l.
Proof.
  induction l as [|x l IH]; [done|]. simpl.
  apply sublist_skip. etrans; [apply sublist_filter|done].
Qed.

Lemma filter_none (P : DiscreteKey → Prop) `{!∀ k, Decision (P k)} l :
  (∀ k, k ∈ l → ¬ P k) → filter P l = [].
Proof.
  induction l as [|x l IH]; intros Hnone; [done|].
  rewrite filter_cons. destruct (decide (P x)) as [HP|_].
  - destruct (Hnone x); [by left|done].
  - apply IH. intros k Hk. apply Hnone. by right.
Qed.

(** X19: [discreteKeys()] starts with the key list of the discrete graph,
    untouched; what follows is taken from the key list of the DC graph in
    the order of that list; the result is never longer than the two lists
    together, and it is the key list of the discrete graph alone exactly
    when every key of the DC graph already occurs in it. *)
Theorem discreteKeys_prefix_and_order g :
  discrete_keys g `prefix_of` discreteKeys g
  ∧ drop (length (discrete_keys g)) (discreteKeys g) `sublist_of` dc_keys g
  ∧ length (discreteKeys g) ≤ length (discrete_keys g) + length (dc_keys g)
  ∧ (discreteKeys g = discrete_keys g
     ↔ ∀ k, k ∈ dc_keys g → k ∈ discrete_keys g).
Proof.
  unfold discreteKeys. rewrite foldl_insert_unique.
  set (dk := discrete_keys g). set (dc := dc_keys g).
  assert (Hsub : first_occurrences (filter (λ k, k ∉ dk) dc) `sublist_of` dc).
  { etrans; [apply first_occurrences_sublist|apply sublist_filter]. }
  split; [by apply prefix_app_r|].
  split; [by rewrite drop_app_length|].
  split; [rewrite length_app; apply sublist_length in Hsub; lia|].
  split.
  - intros Heq k Hk. destruct (decide (k ∈ dk)) as [|Hnot]; [done|].
    assert (Hin : k ∈ first_occurrences (filter (λ k, k ∉ dk) dc)).
    { rewrite elem_of_first_occurrences, list_elem_of_filter. done. }
    rewrite <- (app_nil_r dk) in Heq at 2. apply app_inv_head in Heq.
    rewrite Heq in Hin. by apply not_elem_of_nil in Hin.
  - intros Hall. rewrite filter_none; [by rewrite app_nil_r|].
    intros k Hk Hnot. by apply Hnot, Hall.
Qed.

(** X20: when the discrete graph reports no key, [discreteKeys()] is the
    key list of the DC graph with every repetition after the first
    removed, and holds no key twice. *)
Theorem discreteKeys_dc_only g :
  discrete_keys g = [] →
  discreteKeys g = first_occurrences (dc_keys g)
  ∧ NoDup (discreteKeys g).
Proof.
  intros Hdk. unfold discreteKeys. rewrite foldl_insert_unique, Hdk. simpl.
  rewrite filter_Forall_id
    by (apply Forall_forall; intros k _; apply not_elem_of_nil).
  split; [done|apply NoDup_first_occurrences].
Qed.

End Properties.

(** ** The claims on concrete containers *)

Example sum_two_mixtures :
  mapM asGaussianMixture (dcGraph_ two_mixtures) = Some [tree_A; tree_B]
  ∧ sum two_mixtures = inr (foldl Sum_add Sum_default [tree_A; tree_B])
  ∧ eval (foldl Sum_add Sum_default [tree_A; tree_B]) all_ones = [11; 21].
Proof. repeat split. Qed.

Example sum_two_mixtures_leaves :
  match sum two_mixtures with
  | inr t => leaves t = [[10; 20]; [10; 21]; [11; 20]; [11; 21]]
             ∧ labels t = [0%N; 1%N; 1%N]
  | inl _ => False
  end.
Proof. split; reflexivity. Qed.

Example sum_shared_variable_leaves :
  match sum (push_back_range empty_graph [mixture_A; mixture_A]) with
  | inr t => leaves t = [[10; 10]; [11; 11]] ∧ labels t = [0%N]
  | inl _ => False
  end.
Proof. split; reflexivity. Qed.

Example merge_cross_product_size :
  length (leaves (merge append_to_collection over_A over_B)) = 6.
Proof. reflexivity. Qed.

Example sum_stops_at_other_dc :
  invoke call_sum
    (push_back_range empty_graph [mixture_A; other_dc; mixture_B])
  = (thrown UnsupportedFactorKind,
     push_back_range empty_graph [mixture_A; other_dc; mixture_B]).
Proof. reflexivity. Qed.

(** C3, the claim as stated fails: one object that is both a discrete and a
    DC factor, added once through the router, is stored as one object and
    counted twice by [size()]. *)
Lemma size_counts_objects_counterexample :
  distinct_objects (stored filed_twice) = 1
  ∧ size filed_twice = 2
  ∧ size filed_twice ≠ distinct_objects (stored filed_twice).
Proof. split; [reflexivity|]. split; [reflexivity|]. discriminate. Qed.

(** [discreteKeys()] when each graph lists the scopes of its factors one
    after the other: a key the discrete graph lists twice stays twice, and
    one variable listed with two cardinalities gives two keys. *)
Example discreteKeys_of_concatenating_graphs :
  discreteKeys same_key_twice = [key_A; key_A]
  ∧ discreteKeys (push_back_range empty_graph [discrete_1; other_dc_A3])
    = [(0%N, 2); (0%N, 3)].
Proof. split; reflexivity. Qed.

(** C4, the claim as stated fails: a factor that has the continuous
    capability is not filed into the continuous sub-collection; pushed
    onto an empty container it is stored nowhere. *)
Lemma push_back_continuous_counterexample :
  isContinuousFactor continuous_1 = true
  ∧ factorGraph_ (push_back empty_graph continuous_1) = []
  ∧ (continuous_1 ∉ factorGraph_ (push_back empty_graph continuous_1))
  ∧ stored (push_back empty_graph continuous_1) = [].
Proof.
  split; [reflexivity|]. split; [reflexivity|].
  split; [apply not_elem_of_nil|reflexivity].
Qed.


Lemma push_back_drops_unclassified_witness :
  isDiscreteFactor continuous_1 = false
  ∧ asDCFactor continuous_1 = None
  ∧ invoke (call_push_back continuous_1) two_mixtures
    = (returned_void, two_mixtures).
Proof.
  split; [reflexivity|]. split; [reflexivity|].
  apply push_back_drops_unclassified;
    reflexivity.
Defined.

Lemma flat_list_logs_every_filing_witness :
  consistent one_discrete
  ∧ consistent (push_back one_discrete discrete_dc)
  ∧ factors_ (push_back one_discrete discrete_dc)
    = [discrete_1; discrete_dc; discrete_dc]
  ∧ size one_discrete = 1.
Proof.
  pose proof (filed_discrete [] [] [] [] discrete_1 filed_nil)
    as H.
  split; [exact H|].
  destruct (flat_list_logs_every_filing one_discrete discrete_dc
              [mixture_A] [continuous_1] [discrete_2] [other_dc] H)
    as (_ & _ & _ & _ & Hpb & _ & _ & _ & Hflat & _ & _ & _ & _ & Hsize).
  split; [exact Hpb|]. split; [exact Hflat|exact Hsize].
Defined.

(** C7 at a container holding one discrete factor: after [clear()] the
    counts are 0, yet [size()] is 1, [empty()] is false, the factor is
    still read at index 0, and the flat list no longer agrees with the
    sub-collections. *)
Example clear_keeps_the_flat_list :
  nrDiscreteFactors (clear one_discrete) = 0
  ∧ nrDcFactors (clear one_discrete) = 0
  ∧ size (clear one_discrete) = 1
  ∧ empty (clear one_discrete) = false
  ∧ at_ (clear one_discrete) 0 = Some discrete_1
  ∧ ¬ consistent (clear one_discrete).
Proof.
  repeat split. by apply clear_breaks_consistency.
Qed.

Example linearize_two_dc_factors :
  dcGraph_ (linearize
              (push_back_range empty_graph [mixture_A; other_dc]) tt)
  = [mixture_A; linearized other_dc tt].
Proof. reflexivity. Qed.

(** ** The further properties on concrete containers *)

Lemma push_back_range_well_typed_witness :
  well_typed (empty_graph : HybridFactorGraph binary nat)
  ∧ well_typed (push_back_range empty_graph
                  [discrete_1; mixture_A; discrete_dc; continuous_1])
  ∧ factorGraph_ (push_back_range empty_graph
                    [discrete_1; mixture_A; discrete_dc; continuous_1]) = [].
Proof.
  assert (H : well_typed (empty_graph : HybridFactorGraph binary nat))
    by (split; constructor).
  split; [exact H|].
  exact (push_back_range_well_typed empty_graph
           [discrete_1; mixture_A; discrete_dc; continuous_1] H).
Defined.

Lemma push_back_range_is_make_witness :
  Forall (λ f : Factor binary nat,
            isDiscreteFactor f = true ∧ isDCFactor f = false)
         [discrete_1; discrete_2]
  ∧ Forall (λ f : Factor binary nat,
              isDiscreteFactor f = false ∧ isDCFactor f = true)
           [mixture_A; other_dc]
  ∧ push_back_range empty_graph ([discrete_1; discrete_2] ++ [mixture_A; other_dc])
    = make [] [discrete_1; discrete_2] [mixture_A; other_dc].
Proof.
  assert (H1 : Forall (λ f : Factor binary nat,
                         isDiscreteFactor f = true ∧ isDCFactor f = false)
                      [discrete_1; discrete_2])
    by (repeat constructor).
  assert (H2 : Forall (λ f : Factor binary nat,
                         isDiscreteFactor f = false ∧ isDCFactor f = true)
                      [mixture_A; other_dc])
    by (repeat constructor).
  split; [exact H1|]. split; [exact H2|].
  exact (push_back_range_is_make _ _ H1 H2).
Defined.

Lemma sum_leaf_sizes_witness :
  sum two_mixtures = inr (foldl Sum_add Sum_default [tree_A; tree_B])
  ∧ length (eval (foldl Sum_add Sum_default [tree_A; tree_B]) all_ones)
    = nrDcFactors two_mixtures.
Proof.
  split; [reflexivity|].
  exact (sum_leaf_sizes two_mixtures _ all_ones eq_refl).
Defined.

Lemma sum_order_of_entries_witness :
  dcGraph_ two_mixtures
    ≡ₚ dcGraph_ (push_back_range empty_graph [mixture_B; mixture_A])
  ∧ sum two_mixtures = inr (foldl Sum_add Sum_default [tree_A; tree_B])
  ∧ ∃ s', sum (push_back_range empty_graph [mixture_B; mixture_A]) = inr s'
          ∧ ∀ a, eval (foldl Sum_add Sum_default [tree_A; tree_B]) a ≡ₚ eval s' a.
Proof.
  assert (Hp : dcGraph_ two_mixtures
               ≡ₚ dcGraph_ (push_back_range empty_graph [mixture_B; mixture_A]))
    by apply perm_swap.
  split; [exact Hp|]. split; [reflexivity|].
  exact (sum_order_of_entries two_mixtures _ _ Hp eq_refl).
Defined.

Lemma linearize_then_sum_witness :
  Forall (λ f : Factor binary nat, isGaussianMixture f = true) (dcGraph_ two_mixtures)
  ∧ dcGraph_ (linearize two_mixtures tt) = dcGraph_ two_mixtures
  ∧ sum (linearize two_mixtures tt) = sum two_mixtures.
Proof.
  assert (H : Forall (λ f : Factor binary nat, isGaussianMixture f = true)
                     (dcGraph_ two_mixtures))
    by (repeat constructor).
  split; [exact H|].
  exact (linearize_then_sum two_mixtures tt H).
Defined.

Lemma sum_of_linearized_returns_witness :
  (∀ f : Factor binary nat, isGaussianMixture (DCFactor_linearize f tt) = true)
  ∧ ∃ s, sum (linearize (push_back_range empty_graph [mixture_A; other_dc]) tt)
         = inr s.
Proof.
  assert (H : ∀ f : Factor binary nat,
                isGaussianMixture (DCFactor_linearize f tt) = true)
    by (intros f; reflexivity).
  split; [exact H|].
  exact (sum_of_linearized_returns
           (push_back_range empty_graph [mixture_A; other_dc]) tt H).
Defined.

Lemma equals_reflexive_witness :
  (∀ f : Factor binary nat, factor_equals f f tol_default = true)
  ∧ equals discrete_then_dc discrete_then_dc tol_default = true.
Proof.
  assert (H : ∀ f : Factor binary nat, factor_equals f f tol_default = true)
    by (intros f; by apply bool_decide_eq_true_2).
  split; [exact H|].
  exact (equals_reflexive discrete_then_dc tol_default H).
Defined.

Lemma equals_symmetric_witness :
  (∀ f1 f2 : Factor binary nat,
     factor_equals f1 f2 tol_default = factor_equals f2 f1 tol_default)
  ∧ equals discrete_then_dc dc_then_discrete tol_default
    = equals dc_then_discrete discrete_then_dc tol_default.
Proof.
  assert (H : ∀ f1 f2 : Factor binary nat,
                factor_equals f1 f2 tol_default = factor_equals f2 f1 tol_default)
    by (intros f1 f2; by apply bool_decide_ext).
  split; [exact H|].
  exact (equals_symmetric discrete_then_dc dc_then_discrete tol_default H).
Defined.

Lemma equals_same_counts_witness :
  equals one_discrete (make [] [discrete_1] []) tol_default = true
  ∧ size one_discrete = size (make [] [discrete_1] [])
  ∧ nrDiscreteFactors one_discrete = nrDiscreteFactors (make [] [discrete_1] [])
  ∧ nrDcFactors one_discrete = nrDcFactors (make [] [discrete_1] [])
  ∧ length (factorGraph_ one_discrete)
    = length (factorGraph_ (make [] [discrete_1] [])).
Proof.
  split; [reflexivity|].
  exact (equals_same_counts one_discrete (make [] [discrete_1] []) tol_default
           eq_refl).
Defined.

Lemma equals_after_push_back_witness :
  factor_equals discrete_dc discrete_dc tol_default = true
  ∧ equals (push_back discrete_then_dc discrete_dc)
      (push_back dc_then_discrete discrete_dc) tol_default
    = equals discrete_then_dc dc_then_discrete tol_default.
Proof.
  split; [reflexivity|].
  exact (equals_after_push_back discrete_then_dc dc_then_discrete discrete_dc
           tol_default eq_refl).
Defined.

Lemma discreteKeys_dc_only_witness :
  DiscreteFactorGraph_discreteKeys (discreteGraph_ two_mixtures) = []
  ∧ discreteKeys two_mixtures
    = first_occurrences (DCFactorGraph_discreteKeys (dcGraph_ two_mixtures))
  ∧ NoDup (discreteKeys two_mixtures).
Proof.
  split; [reflexivity|].
  exact (discreteKeys_dc_only two_mixtures eq_refl).
Defined.
